(** * Process support of the kernel (kern/proc/proc.c)

    A shallow embedding of the process registry, the identifier
    allocator, descriptor construction and destruction, thread binding
    and the address-space accessors, followed by the properties the
    specification states about them.

    Kernel memory is one heap of typed objects indexed by address; C
    pointers are [option loc] with [None] for NULL.  Every function of
    proc.c is a computation in a state-and-fault monad over the kernel
    state: a fault stands for what stops the kernel (a failed KASSERT, a
    panic, a NULL or dangling dereference, an index outside an array). *)

From Stdlib Require Import ZArith Lia.
From stdpp Require Import gmap strings list fin_maps.

Local Open Scope Z_scope.

(** ** Machine integers *)

(** [unsigned] is 32 bits wide; arithmetic on it wraps around. *)
Definition UINT_MOD : Z := 2 ^ 32.
Definition u32 (z : Z) : Z := z mod UINT_MOD.

(** [pid_t] is the kernel's signed 32-bit integer type. *)
Definition PID_MAX : Z := 2 ^ 31 - 1.
Definition PID_MIN : Z := - 2 ^ 31.
Definition s32 (z : Z) : Z := (z + 2 ^ 31) mod 2 ^ 32 - 2 ^ 31.

(** Error number returned when memory runs out (kern/errno.h). *)
Definition ENOMEM : Z := 3.

(** ** Kernel objects *)

Definition loc := positive.
Abbreviation ptr := (option loc).

(** struct proc.  The thread array and the children array are embedded in
    the structure; everything else is a scalar or a pointer.  [console]
    exists in the UW configuration only and is ignored otherwise. *)
Record proc := mkProc {
  p_name : ptr;
  p_lock : bool;              (* the spinlock: [true] while held *)
  p_threads : list loc;
  p_addrspace : ptr;
  p_cwd : ptr;
  console : ptr;
  p_id : Z;
  p_did_exit : bool;
  p_exitcode : Z;
  p_exit_lk : ptr;
  p_wait_lk : ptr;
  p_wait_cv : ptr;
  p_children : list loc
}.

(** What kmalloc hands back before any field is written. *)
Definition blank_proc : proc :=
  mkProc None false [] None None None 0 false 0 None None None [].

Definition with_name (v : ptr) (d : proc) : proc :=
  mkProc v (p_lock d) (p_threads d) (p_addrspace d) (p_cwd d) (console d)
         (p_id d) (p_did_exit d) (p_exitcode d) (p_exit_lk d) (p_wait_lk d)
         (p_wait_cv d) (p_children d).
Definition with_lock (v : bool) (d : proc) : proc :=
  mkProc (p_name d) v (p_threads d) (p_addrspace d) (p_cwd d) (console d)
         (p_id d) (p_did_exit d) (p_exitcode d) (p_exit_lk d) (p_wait_lk d)
         (p_wait_cv d) (p_children d).
Definition with_threads (v : list loc) (d : proc) : proc :=
  mkProc (p_name d) (p_lock d) v (p_addrspace d) (p_cwd d) (console d)
         (p_id d) (p_did_exit d) (p_exitcode d) (p_exit_lk d) (p_wait_lk d)
         (p_wait_cv d) (p_children d).
Definition with_addrspace (v : ptr) (d : proc) : proc :=
  mkProc (p_name d) (p_lock d) (p_threads d) v (p_cwd d) (console d)
         (p_id d) (p_did_exit d) (p_exitcode d) (p_exit_lk d) (p_wait_lk d)
         (p_wait_cv d) (p_children d).
Definition with_cwd (v : ptr) (d : proc) : proc :=
  mkProc (p_name d) (p_lock d) (p_threads d) (p_addrspace d) v (console d)
         (p_id d) (p_did_exit d) (p_exitcode d) (p_exit_lk d) (p_wait_lk d)
         (p_wait_cv d) (p_children d).
Definition with_console (v : ptr) (d : proc) : proc :=
  mkProc (p_name d) (p_lock d) (p_threads d) (p_addrspace d) (p_cwd d) v
         (p_id d) (p_did_exit d) (p_exitcode d) (p_exit_lk d) (p_wait_lk d)
         (p_wait_cv d) (p_children d).
Definition with_id (v : Z) (d : proc) : proc :=
  mkProc (p_name d) (p_lock d) (p_threads d) (p_addrspace d) (p_cwd d)
         (console d) v (p_did_exit d) (p_exitcode d) (p_exit_lk d)
         (p_wait_lk d) (p_wait_cv d) (p_children d).
Definition with_did_exit (v : bool) (d : proc) : proc :=
  mkProc (p_name d) (p_lock d) (p_threads d) (p_addrspace d) (p_cwd d)
         (console d) (p_id d) v (p_exitcode d) (p_exit_lk d) (p_wait_lk d)
         (p_wait_cv d) (p_children d).
Definition with_exitcode (v : Z) (d : proc) : proc :=
  mkProc (p_name d) (p_lock d) (p_threads d) (p_addrspace d) (p_cwd d)
         (console d) (p_id d) (p_did_exit d) v (p_exit_lk d) (p_wait_lk d)
         (p_wait_cv d) (p_children d).
Definition with_exit_lk (v : ptr) (d : proc) : proc :=
  mkProc (p_name d) (p_lock d) (p_threads d) (p_addrspace d) (p_cwd d)
         (console d) (p_id d) (p_did_exit d) (p_exitcode d) v (p_wait_lk d)
         (p_wait_cv d) (p_children d).
Definition with_wait_lk (v : ptr) (d : proc) : proc :=
  mkProc (p_name d) (p_lock d) (p_threads d) (p_addrspace d) (p_cwd d)
         (console d) (p_id d) (p_did_exit d) (p_exitcode d) (p_exit_lk d) v
         (p_wait_cv d) (p_children d).
Definition with_wait_cv (v : ptr) (d : proc) : proc :=
  mkProc (p_name d) (p_lock d) (p_threads d) (p_addrspace d) (p_cwd d)
         (console d) (p_id d) (p_did_exit d) (p_exitcode d) (p_exit_lk d)
         (p_wait_lk d) v (p_children d).
Definition with_children (v : list loc) (d : proc) : proc :=
  mkProc (p_name d) (p_lock d) (p_threads d) (p_addrspace d) (p_cwd d)
         (console d) (p_id d) (p_did_exit d) (p_exitcode d) (p_exit_lk d)
         (p_wait_lk d) (p_wait_cv d) v.

(** The objects kernel memory can hold.  Threads, vnodes and address
    spaces belong to other subsystems; only what proc.c touches of them is
    kept: a thread's [t_proc] back-reference and a vnode's reference
    count. *)
Inductive obj :=
  | OProc (d : proc)
  | OStr (s : string)
  | OLock (name : string)
  | OCv (name : string)
  | OSem (name : string) (count : Z)
  | OArr (items : list loc)
  | OThread (t_proc : ptr)
  | OVnode (refcount : Z)
  | OAddrspace.

(** ** Kernel state and the monad *)

Inductive fault :=
  | NullDeref      (* a NULL pointer was dereferenced *)
  | BadPointer     (* the address holds no live object of the expected type *)
  | OutOfBounds    (* an array was indexed at or beyond its size *)
  | AssertFail     (* KASSERT failed *)
  | Panicked       (* panic() *)
  | Deadlock       (* a held spinlock was acquired again *)
  | WouldBlock     (* P() on a semaphore whose count is zero *)
  | Diverged.      (* the loop did not finish within its fuel *)

(** Calls whose order the specification constrains are recorded. *)
Inductive event :=
  | EvAcquire (p : loc)     (* spinlock_acquire(&p->p_lock) *)
  | EvRelease (p : loc)     (* spinlock_release(&p->p_lock) *)
  | EvIncref (v : loc)      (* VOP_INCREF(v) *)
  | EvDecref (v : loc)      (* VOP_DECREF(v) *)
  | EvGenPid (pid : Z)      (* gen_pid() returned pid *)
  | EvAsDeactivate.         (* as_deactivate() *)

Record kstate := mkState {
  heap : gmap loc obj;
  kproc : ptr;
  proc_count : Z;
  proc_count_mutex : ptr;
  no_proc_sem : ptr;
  allprocs : ptr;
  base_pid : Z;
  curthread : ptr;
  (* the outcome of the allocations still to come, first one first;
     once the list is used up every allocation succeeds *)
  oracle : list bool;
  (* the events so far, oldest first *)
  trace : list event
}.

Definition upd_heap (f : gmap loc obj → gmap loc obj) (s : kstate) : kstate :=
  mkState (f (heap s)) (kproc s) (proc_count s) (proc_count_mutex s)
          (no_proc_sem s) (allprocs s) (base_pid s) (curthread s) (oracle s)
          (trace s).
Definition set_kproc (v : ptr) (s : kstate) : kstate :=
  mkState (heap s) v (proc_count s) (proc_count_mutex s) (no_proc_sem s)
          (allprocs s) (base_pid s) (curthread s) (oracle s) (trace s).
Definition set_proc_count (v : Z) (s : kstate) : kstate :=
  mkState (heap s) (kproc s) v (proc_count_mutex s) (no_proc_sem s)
          (allprocs s) (base_pid s) (curthread s) (oracle s) (trace s).
Definition set_proc_count_mutex (v : ptr) (s : kstate) : kstate :=
  mkState (heap s) (kproc s) (proc_count s) v (no_proc_sem s) (allprocs s)
          (base_pid s) (curthread s) (oracle s) (trace s).
Definition set_no_proc_sem (v : ptr) (s : kstate) : kstate :=
  mkState (heap s) (kproc s) (proc_count s) (proc_count_mutex s) v
          (allprocs s) (base_pid s) (curthread s) (oracle s) (trace s).
Definition set_allprocs (v : ptr) (s : kstate) : kstate :=
  mkState (heap s) (kproc s) (proc_count s) (proc_count_mutex s)
          (no_proc_sem s) v (base_pid s) (curthread s) (oracle s) (trace s).
Definition set_base_pid (v : Z) (s : kstate) : kstate :=
  mkState (heap s) (kproc s) (proc_count s) (proc_count_mutex s)
          (no_proc_sem s) (allprocs s) v (curthread s) (oracle s) (trace s).
Definition set_oracle (v : list bool) (s : kstate) : kstate :=
  mkState (heap s) (kproc s) (proc_count s) (proc_count_mutex s)
          (no_proc_sem s) (allprocs s) (base_pid s) (curthread s) v (trace s).
Definition log (e : event) (s : kstate) : kstate :=
  mkState (heap s) (kproc s) (proc_count s) (proc_count_mutex s)
          (no_proc_sem s) (allprocs s) (base_pid s) (curthread s) (oracle s)
          (trace s ++ [e]).

Inductive outcome (A : Type) :=
  | Ok (a : A) (s : kstate)
  | Fault (f : fault).
Arguments Ok {A} a s.
Arguments Fault {A} f.

Definition M (A : Type) : Type := kstate → outcome A.

Definition ret {A} (a : A) : M A := λ s, Ok a s.
Definition bind {A B} (m : M A) (k : A → M B) : M B :=
  λ s, match m s with
       | Ok a s' => k a s'
       | Fault f => Fault f
       end.
Definition fail {A} (f : fault) : M A := λ _, Fault f.
Definition gets {A} (f : kstate → A) : M A := λ s, Ok (f s) s.
Definition modify (f : kstate → kstate) : M unit := λ s, Ok tt (f s).

Notation "'let*' x ':=' m 'in' k" := (bind m (λ x, k))
  (at level 10, x pattern, m at level 100, k at level 200,
   format "'[v' 'let*'  x  ':='  m  'in' '/' k ']'").
Notation "m ';;' k" := (bind m (λ _, k))
  (at level 100, k at level 200, right associativity,
   format "'[v' m  ';;' '/' k ']'").

(** KASSERT and panic. *)
Definition KASSERT (c : bool) : M unit := if c then ret tt else fail AssertFail.
Definition panic {A} : M A := fail Panicked.

(** ** Memory *)

Definition deref (p : ptr) : M obj :=
  λ s, match p with
       | None => Fault NullDeref
       | Some l => match heap s !! l with
                   | Some o => Ok o s
                   | None => Fault BadPointer
                   end
       end.

Definition store (l : loc) (o : obj) : M unit := modify (upd_heap <[l:=o]>).

(** The next allocation's outcome. *)
Definition draw : M bool :=
  λ s, match oracle s with
       | [] => Ok true s
       | b :: rest => Ok b (set_oracle rest s)
       end.

(** kmalloc, and every constructor built on it: a new object at an
    address that holds nothing, or NULL. *)
Definition alloc (o : obj) : M ptr :=
  let* ok := draw in
  if ok : bool then
    let* l := gets (λ s, fresh (dom (heap s))) in
    store l o;;
    ret (Some l)
  else ret None.

Definition is_proc (o : obj) := match o with OProc _ => true | _ => false end.
Definition is_str (o : obj) := match o with OStr _ => true | _ => false end.
Definition is_lock (o : obj) := match o with OLock _ => true | _ => false end.
Definition is_cv (o : obj) := match o with OCv _ => true | _ => false end.
Definition is_arr (o : obj) := match o with OArr _ => true | _ => false end.
Definition is_as (o : obj) := match o with OAddrspace => true | _ => false end.

(** kfree of a block of the given type; kfree(NULL) does nothing. *)
Definition kfree (kind : obj → bool) (p : ptr) : M unit :=
  match p with
  | None => ret tt
  | Some l =>
      let* o := deref p in
      if kind o then modify (upd_heap (delete l)) else fail BadPointer
  end.

Definition rd_proc (p : ptr) : M proc :=
  let* o := deref p in
  match o with OProc d => ret d | _ => fail BadPointer end.

Definition wr_proc (p : ptr) (f : proc → proc) : M unit :=
  let* d := rd_proc p in
  match p with Some l => store l (OProc (f d)) | None => fail NullDeref end.

Definition rd_thread (t : ptr) : M ptr :=
  let* o := deref t in
  match o with OThread tp => ret tp | _ => fail BadPointer end.

Definition wr_thread (t : ptr) (tp : ptr) : M unit :=
  let* _ := rd_thread t in
  match t with Some l => store l (OThread tp) | None => fail NullDeref end.

(** [curproc] is [curthread->t_proc] (current.h). *)
Definition curproc : M ptr :=
  let* t := gets curthread in rd_thread t.

(** ** Arrays (array.h) *)

(** A [struct array *] points either at an array object of its own on the
    heap or at an array embedded in a process structure. *)
Inductive aref :=
  | AHeap (a : ptr)
  | AThreads (p : ptr)       (* &p->p_threads *)
  | AChildren (p : ptr).     (* &p->p_children *)

Definition rd_array (r : aref) : M (list loc) :=
  match r with
  | AHeap a =>
      let* o := deref a in
      match o with OArr l => ret l | _ => fail BadPointer end
  | AThreads p => let* d := rd_proc p in ret (p_threads d)
  | AChildren p => let* d := rd_proc p in ret (p_children d)
  end.

Definition wr_array (r : aref) (l : list loc) : M unit :=
  match r with
  | AHeap a =>
      let* _ := rd_array r in
      match a with Some x => store x (OArr l) | None => fail NullDeref end
  | AThreads p => wr_proc p (with_threads l)
  | AChildren p => wr_proc p (with_children l)
  end.

(** Modelled from the spec: the array library (array.h) behind the
    registry, "a dynamically sized sequence" that "lazily allocates the
    backing sequence on first use", whose growth can fail for lack of
    memory and whose accessors must not be probed out of bounds: reading or
    removing at an index that is not below the size is a fault. *)
Definition array_create : M ptr := alloc (OArr []).
Definition array_init (r : aref) : M unit := wr_array r [].
Definition array_num (r : aref) : M Z :=
  let* l := rd_array r in ret (Z.of_nat (length l)).
Definition array_get (r : aref) (index : Z) : M loc :=
  let* l := rd_array r in
  if bool_decide (0 ≤ index < Z.of_nat (length l)) then
    match l !! Z.to_nat index with
    | Some x => ret x
    | None => fail OutOfBounds
    end
  else fail OutOfBounds.
Definition array_add (r : aref) (val : loc) : M Z :=
  let* l := rd_array r in
  let* ok := draw in
  if ok : bool then wr_array r (l ++ [val]);; ret 0 else ret ENOMEM.
Definition array_remove (r : aref) (index : Z) : M unit :=
  let* l := rd_array r in
  if bool_decide (0 ≤ index < Z.of_nat (length l)) then
    wr_array r (delete (Z.to_nat index) l)
  else fail OutOfBounds.
Definition array_cleanup (r : aref) : M unit :=
  let* l := rd_array r in
  KASSERT (bool_decide (length l = 0%nat)).
Definition array_destroy (a : ptr) : M unit :=
  array_cleanup (AHeap a);;
  kfree is_arr a.

(** Thread arrays are arrays of thread pointers with the same interface. *)
Definition threadarray_init := array_init.
Definition threadarray_cleanup := array_cleanup.
Definition threadarray_num := array_num.
Definition threadarray_get := array_get.
Definition threadarray_add := array_add.
Definition threadarray_remove := array_remove.

(** ** Synchronisation primitives (spinlock.h, synch.h) *)

(** Modelled from the spec: the short lock, "a spin-style
    mutual-exclusion primitive".  It lives inside the process structure,
    so it is named by the process that holds it. *)
Definition spinlock_init (p : ptr) : M unit := wr_proc p (with_lock false).
Definition spinlock_acquire (p : ptr) : M unit :=
  let* d := rd_proc p in
  if p_lock d then fail Deadlock
  else
    wr_proc p (with_lock true);;
    match p with Some l => modify (log (EvAcquire l)) | None => ret tt end.
Definition spinlock_release (p : ptr) : M unit :=
  let* d := rd_proc p in
  KASSERT (p_lock d);;
  wr_proc p (with_lock false);;
  match p with Some l => modify (log (EvRelease l)) | None => ret tt end.
Definition spinlock_cleanup (p : ptr) : M unit :=
  let* d := rd_proc p in
  KASSERT (negb (p_lock d)).

(** Modelled from the spec: blocking locks, condition variables and
    counting semaphores, whose "constructors may fail (allocation
    exhaustion)". *)
Definition lock_create (name : string) : M ptr := alloc (OLock name).
Definition lock_destroy (lk : ptr) : M unit :=
  KASSERT (bool_decide (lk ≠ None));;
  kfree is_lock lk.
Definition cv_create (name : string) : M ptr := alloc (OCv name).
Definition cv_destroy (cv : ptr) : M unit :=
  KASSERT (bool_decide (cv ≠ None));;
  kfree is_cv cv.
Definition sem_create (name : string) (initial : Z) : M ptr :=
  alloc (OSem name initial).
Definition P (sem : ptr) : M unit :=
  let* o := deref sem in
  match o, sem with
  | OSem n c, Some l =>
      if bool_decide (c = 0) then fail WouldBlock else store l (OSem n (c - 1))
  | _, _ => fail BadPointer
  end.
Definition V (sem : ptr) : M unit :=
  let* o := deref sem in
  match o, sem with
  | OSem n c, Some l => store l (OSem n (c + 1))
  | _, _ => fail BadPointer
  end.

(** ** Vnodes and address spaces (vnode.h, vfs.h, addrspace.h) *)

(** Modelled from the spec: the vnode reference-counting protocol,
    "increment/decrement only"; the last decrement reclaims the vnode. *)
Definition VOP_INCREF (v : ptr) : M unit :=
  let* o := deref v in
  match o, v with
  | OVnode n, Some l => store l (OVnode (n + 1));; modify (log (EvIncref l))
  | _, _ => fail BadPointer
  end.
Definition VOP_DECREF (v : ptr) : M unit :=
  let* o := deref v in
  match o, v with
  | OVnode n, Some l =>
      KASSERT (bool_decide (0 < n));;
      (if bool_decide (n = 1) then modify (upd_heap (delete l))
       else store l (OVnode (n - 1)));;
      modify (log (EvDecref l))
  | _, _ => fail BadPointer
  end.

(** Modelled from the spec: opening a device by path gives a vnode with
    one reference of its own, or an error code and no vnode. *)
Definition vfs_open (path : ptr) : M (Z * ptr) :=
  let* o := deref path in
  if is_str o then
    let* v := alloc (OVnode 1) in
    ret (if v is Some _ then 0 else ENOMEM, v)
  else fail BadPointer.
Definition vfs_close (v : ptr) : M unit := VOP_DECREF v.

(** Modelled from the spec: the address-space object, an "opaque
    resource with activate/deactivate/destroy operations". *)
Definition as_deactivate : M unit := modify (log EvAsDeactivate).
Definition as_destroy (a : ptr) : M unit := kfree is_as a.

Definition kstrdup (s : string) : M ptr := alloc (OStr s).

(** ** proc.c *)

(** *** The registry *)

(** The loop of [procarray_proc_index_by_pid].  [low], [high] and [probe]
    are unsigned, so [probe - 1] at [probe = 0] and [array_num - 1] on an
    empty array wrap to [2^32 - 1]. *)
Fixpoint index_loop (fuel : nat) (procs : aref) (pid : Z) (low high : Z)
  : M Z :=
  match fuel with
  | O => fail Diverged
  | S fuel' =>
      if bool_decide (high >= low) then
        let probe := u32 (high + low) / 2 in
        let* p := array_get procs probe in
        let* d := rd_proc (Some p) in
        if bool_decide (pid = p_id d) then ret probe
        else if bool_decide (pid < p_id d) then
          index_loop fuel' procs pid low (u32 (probe - 1))
        else
          index_loop fuel' procs pid (u32 (probe + 1)) high
      else
        (* No process found for this pid *)
        ret (u32 (-1))
  end.

(** The fuel covers every run on an array of fewer than [2^31] entries
    (see [index_loop_finishes]). *)
Definition procarray_proc_index_by_pid (procs : aref) (pid : Z) : M Z :=
  let* num := array_num procs in
  let low := 0 in
  let high := u32 (num - 1) in
  index_loop (Z.to_nat num + 2) procs pid low high.

Definition procarray_proc_by_pid (procs : aref) (pid : Z) : M ptr :=
  let* i := procarray_proc_index_by_pid procs pid in
  let* p := array_get procs i in
  ret (Some p).

Definition procarray_allprocs_proc_by_pid (pid : Z) : M ptr :=
  let* a := gets allprocs in
  procarray_proc_by_pid (AHeap a) pid.

Definition procarray_add_proc (procs : aref) (p : loc) : M unit :=
  array_add procs p;;
  ret tt.

Definition procarray_allprocs_add_proc (p : loc) : M unit :=
  let* a := gets allprocs in
  (if a is None then
     let* a' := array_create in
     modify (set_allprocs a');;
     array_init (AHeap a')
   else ret tt);;
  let* a := gets allprocs in
  procarray_add_proc (AHeap a) p.

Definition procarray_remove_proc (procs : aref) (pid : Z) : M unit :=
  let* i := procarray_proc_index_by_pid procs pid in
  array_remove procs i.

Definition procarray_allprocs_remove_proc (pid : Z) : M unit :=
  let* a := gets allprocs in
  procarray_remove_proc (AHeap a) pid;;
  (* Deinit the processes array *)
  let* n := array_num (AHeap a) in
  if bool_decide (n = 0) then
    array_cleanup (AHeap a);;
    array_destroy a;;
    modify (set_allprocs None)
  else ret tt.

(** *** The identifier allocator *)

Definition gen_pid : M Z :=
  let* b := gets base_pid in
  let pid := s32 (b + 1) in
  modify (set_base_pid pid);;
  modify (log (EvGenPid pid));;
  ret pid.

(** *** The address-space accessors *)

Section Config.

(** Whether the kernel is built with [UW] defined. *)
Variable UW : bool.

Definition curproc_getas : M ptr :=
  let* cp := curproc in
  if UW && bool_decide (cp = None) then ret None
  else
    spinlock_acquire cp;;
    let* d := rd_proc cp in
    let a := p_addrspace d in
    spinlock_release cp;;
    ret a.

Definition curproc_setas (newas : ptr) : M ptr :=
  let* proc := curproc in
  spinlock_acquire proc;;
  let* d := rd_proc proc in
  let oldas := p_addrspace d in
  wr_proc proc (with_addrspace newas);;
  spinlock_release proc;;
  ret oldas.

(** *** Creation and destruction *)

Definition proc_create (name : string) : M ptr :=
  let* proc := alloc (OProc blank_proc) in
  if proc is None then ret None else
  let* nm := kstrdup name in
  wr_proc proc (with_name nm);;
  if nm is None then kfree is_proc proc;; ret None else
  threadarray_init (AThreads proc);;
  spinlock_init proc;;
  (* VM fields *)
  wr_proc proc (with_addrspace None);;
  (* VFS fields *)
  wr_proc proc (with_cwd None);;
  (if UW then wr_proc proc (with_console None) else ret tt);;
  (* Generate a process ID and add it to the processes array *)
  let* pid := gen_pid in
  wr_proc proc (with_id pid);;
  wr_proc proc (with_did_exit false);;
  wr_proc proc (with_exitcode 0);;
  let* lk := lock_create "p_exit_lk" in
  wr_proc proc (with_exit_lk lk);;
  let* d := rd_proc proc in
  if p_exit_lk d is None then
    kfree is_str (p_name d);;
    kfree is_proc proc;;
    ret None
  else
  let* lk := lock_create "p_wait_lk" in
  wr_proc proc (with_wait_lk lk);;
  let* d := rd_proc proc in
  if p_exit_lk d is None then
    lock_destroy (p_exit_lk d);;
    kfree is_str (p_name d);;
    kfree is_proc proc;;
    ret None
  else
  let* cv := cv_create "p_wait_cv" in
  wr_proc proc (with_wait_cv cv);;
  let* d := rd_proc proc in
  if p_exit_lk d is None then
    lock_destroy (p_wait_lk d);;
    lock_destroy (p_exit_lk d);;
    kfree is_str (p_name d);;
    kfree is_proc proc;;
    ret None
  else
  (* proc->p_children = *array_create(); *)
  let* a := array_create in
  let* items := rd_array (AHeap a) in
  wr_array (AChildren proc) items;;
  array_init (AChildren proc);;
  (* Process created successfully, add it to the array of all processes *)
  (if proc is Some l then procarray_allprocs_add_proc l else ret tt);;
  ret proc.

Definition proc_destroy (proc : ptr) : M unit :=
  KASSERT (bool_decide (proc ≠ None));;
  let* kp := gets kproc in
  KASSERT (bool_decide (proc ≠ kp));;
  (* Remove the process from the global process array. *)
  let* d := rd_proc proc in
  procarray_allprocs_remove_proc (p_id d);;
  (* VFS fields *)
  let* d := rd_proc proc in
  (if p_cwd d is Some _ then
     VOP_DECREF (p_cwd d);;
     wr_proc proc (with_cwd None)
   else ret tt);;
  (if UW then ret tt
   else
     let* d := rd_proc proc in
     if p_addrspace d is Some _ then
       as_deactivate;;
       let* a := curproc_setas None in
       as_destroy a
     else ret tt);;
  (if UW then
     let* d := rd_proc proc in
     if console d is Some _ then vfs_close (console d) else ret tt
   else ret tt);;
  threadarray_cleanup (AThreads proc);;
  spinlock_cleanup proc;;
  array_cleanup (AChildren proc);;
  let* d := rd_proc proc in
  lock_destroy (p_exit_lk d);;
  lock_destroy (p_wait_lk d);;
  cv_destroy (p_wait_cv d);;
  kfree is_str (p_name d);;
  kfree is_proc proc;;
  if UW then
    (* decrement the process count *)
    let* m := gets proc_count_mutex in
    P m;;
    let* c := gets proc_count in
    KASSERT (bool_decide (c > 0));;
    modify (set_proc_count (u32 (c - 1)));;
    let* c := gets proc_count in
    (if bool_decide (c = 0) then
       let* s := gets no_proc_sem in V s
     else ret tt);;
    V m
  else ret tt.

Definition proc_bootstrap : M unit :=
  let* kp := proc_create "[kernel]" in
  modify (set_kproc kp);;
  (if kp is None then panic else ret tt);;
  if UW then
    modify (set_proc_count 0);;
    let* m := sem_create "proc_count_mutex" 1 in
    modify (set_proc_count_mutex m);;
    (if m is None then panic else ret tt);;
    let* s := sem_create "no_proc_sem" 0 in
    modify (set_no_proc_sem s);;
    if s is None then panic else ret tt
  else ret tt.

Definition proc_create_runprogram (name : string) : M ptr :=
  let* proc := proc_create name in
  if proc is None then ret None else
  (if UW then
     (* open the console - this should always succeed *)
     let* console_path := kstrdup "con:" in
     (if console_path is None then panic else ret tt);;
     let* r := vfs_open console_path in
     wr_proc proc (with_console r.2);;
     (if bool_decide (r.1 ≠ 0) then panic else ret tt);;
     kfree is_str console_path
   else ret tt);;
  (* VM fields *)
  wr_proc proc (with_addrspace None);;
  (* VFS fields *)
  (if UW then
     let* cp := curproc in
     let* cd := rd_proc cp in
     if p_cwd cd is Some _ then
       VOP_INCREF (p_cwd cd);;
       let* cp := curproc in
       let* cd := rd_proc cp in
       wr_proc proc (with_cwd (p_cwd cd))
     else ret tt
   else
     let* cp := curproc in
     spinlock_acquire cp;;
     let* cd := rd_proc cp in
     (if p_cwd cd is Some _ then
        VOP_INCREF (p_cwd cd);;
        let* cp := curproc in
        let* cd := rd_proc cp in
        wr_proc proc (with_cwd (p_cwd cd))
      else ret tt);;
     let* cp := curproc in
     spinlock_release cp);;
  (if UW then
     (* increment the count of processes *)
     let* m := gets proc_count_mutex in
     P m;;
     let* c := gets proc_count in
     modify (set_proc_count (u32 (c + 1)));;
     V m
   else ret tt);;
  ret proc.

(** *** Thread binding *)

Definition proc_addthread (proc : ptr) (t : ptr) : M Z :=
  let* tp := rd_thread t in
  KASSERT (bool_decide (tp = None));;
  spinlock_acquire proc;;
  let* result :=
    (if t is Some tl then threadarray_add (AThreads proc) tl
     else fail NullDeref) in
  spinlock_release proc;;
  if bool_decide (result ≠ 0) then ret result
  else
    wr_thread t proc;;
    ret 0.

End Config.

(** The scan of [proc_remthread]: [k] iterations are left, starting at
    index [i] (which stays below [num], so [i++] does not wrap).  The
    result says whether the thread was found (and removed, its
    back-reference cleared). *)
Fixpoint remthread_scan (k : nat) (proc : ptr) (t : loc) (i : Z) : M bool :=
  match k with
  | O => ret false
  | S k' =>
      let* x := threadarray_get (AThreads proc) i in
      if bool_decide (x = t) then
        threadarray_remove (AThreads proc) i;;
        spinlock_release proc;;
        wr_thread (Some t) None;;
        ret true
      else remthread_scan k' proc t (i + 1)
  end.

Definition proc_remthread (t : ptr) : M unit :=
  let* proc := rd_thread t in
  KASSERT (bool_decide (proc ≠ None));;
  spinlock_acquire proc;;
  (* ugh: find the thread in the array *)
  let* num := threadarray_num (AThreads proc) in
  let* found :=
    (if t is Some tl then remthread_scan (Z.to_nat num) proc tl 0
     else fail NullDeref) in
  if found : bool then ret tt
  else
    (* Did not find it. *)
    spinlock_release proc;;
    panic.

(** ** Observations on states and traces *)

(** The entries of the registry: none while [allprocs] is NULL. *)
Definition registry (s : kstate) : option (list loc) :=
  match allprocs s with
  | None => Some []
  | Some a => match heap s !! a with
              | Some (OArr l) => Some l
              | _ => None
              end
  end.

Definition pid_at (s : kstate) (l : loc) : option Z :=
  match heap s !! l with
  | Some (OProc d) => Some (p_id d)
  | _ => None
  end.

(** The identifiers of the registered descriptors, in registry order. *)
Definition registry_pids (s : kstate) : option (list Z) :=
  match registry s with
  | Some l => mapM (pid_at s) l
  | None => None
  end.

(** A readable array of live descriptors and their identifiers. *)
Definition procs_view (s : kstate) (r : aref) (l : list loc) (pids : list Z) : Prop :=
  rd_array r s = Ok l s ∧ mapM (pid_at s) l = Some pids.

(** Strictly ascending. *)
Fixpoint ascending (l : list Z) : bool :=
  match l with
  | x :: (y :: _) as rest => bool_decide (x < y) && ascending rest
  | _ => true
  end.

Definition registry_sorted (s : kstate) : Prop :=
  ∃ pids, registry_pids s = Some pids ∧ ascending pids = true.

(** The identifiers [gen_pid] has returned, oldest first. *)
Fixpoint issued (tr : list event) : list Z :=
  match tr with
  | [] => []
  | EvGenPid pid :: rest => pid :: issued rest
  | _ :: rest => issued rest
  end.

(** Whether some VOP_INCREF in the trace runs while a spinlock is held;
    [held] are the spinlocks held when the trace starts. *)
Fixpoint incref_under_lock (held : list loc) (tr : list event) : bool :=
  match tr with
  | [] => false
  | EvAcquire p :: rest => incref_under_lock (p :: held) rest
  | EvRelease p :: rest =>
      incref_under_lock (filter (λ q, q ≠ p) held) rest
  | EvIncref _ :: rest =>
      negb (bool_decide (held = [])) || incref_under_lock held rest
  | _ :: rest => incref_under_lock held rest
  end.

Definition is_lock_event (e : event) : bool :=
  match e with EvAcquire _ | EvRelease _ => true | _ => false end.
Definition is_incref (e : event) : bool :=
  match e with EvIncref _ => true | _ => false end.

(** Whether the trace takes spinlock [p] and gives it back before the
    first VOP_INCREF: acquire, release, then increment. *)
Fixpoint released_before_incref (p : loc) (tr : list event) : bool :=
  match tr with
  | [] => false
  | EvAcquire q :: rest =>
      if bool_decide (q = p) then
        (fix released (tr : list event) : bool :=
           match tr with
           | [] => false
           | EvRelease q' :: rest' =>
               if bool_decide (q' = p)
               then bool_decide (Exists (λ e, is_incref e = true) rest')
               else released rest'
           | EvIncref _ :: _ => false
           | _ :: rest' => released rest'
           end) rest
      else released_before_incref p rest
  | EvIncref _ :: _ => false
  | _ :: rest => released_before_incref p rest
  end.

(** The reference count of a vnode. *)
Definition refcount (s : kstate) (v : loc) : option Z :=
  match heap s !! v with
  | Some (OVnode n) => Some n
  | _ => None
  end.

(** The back-reference of a thread and the fields of a descriptor. *)
Definition t_proc_of (s : kstate) (t : loc) : option ptr :=
  match heap s !! t with
  | Some (OThread tp) => Some tp
  | _ => None
  end.
Definition proc_at (s : kstate) (p : loc) : option proc :=
  match heap s !! p with
  | Some (OProc d) => Some d
  | _ => None
  end.

(** ** Sequences of calls *)

(** A call into proc.c.  A descriptor to destroy is given either as a
    pointer or as the number of the earlier [CCreate]/[CCreateRun] call
    that returned it (counting from 0). *)
Inductive call :=
  | CBootstrap
  | CCreate (name : string)
  | CCreateRun (name : string)
  | CDestroy (p : ptr)
  | CDestroyNth (k : nat)
  | CGenPid
  | CAddThread (p : ptr) (t : ptr)
  | CRemThread (t : ptr)
  | CGetAs
  | CSetAs (a : ptr).

(** One call, on the state and the descriptors returned so far. *)
Definition run_call (UW : bool) (c : call) (ds : list ptr)
  : M (list ptr) :=
  match c with
  | CBootstrap => proc_bootstrap UW;; ret ds
  | CCreate name => let* p := proc_create UW name in ret (ds ++ [p])
  | CCreateRun name =>
      let* p := proc_create_runprogram UW name in ret (ds ++ [p])
  | CDestroy p => proc_destroy UW p;; ret ds
  | CDestroyNth k =>
      match ds !! k with
      | Some p => proc_destroy UW p;; ret ds
      | None => fail BadPointer
      end
  | CGenPid => gen_pid;; ret ds
  | CAddThread p t => proc_addthread p t;; ret ds
  | CRemThread t => proc_remthread t;; ret ds
  | CGetAs => curproc_getas UW;; ret ds
  | CSetAs a => curproc_setas a;; ret ds
  end.

Fixpoint run_calls (UW : bool) (cs : list call) (ds : list ptr)
  : M (list ptr) :=
  match cs with
  | [] => ret ds
  | c :: rest =>
      let* ds' := run_call UW c ds in
      run_calls UW rest ds'
  end.

(** The kernel before anything of proc.c has run: the globals as their
    initialisers leave them; memory holds whatever earlier boot code has
    set up. *)
Definition boot_state (s : kstate) : Prop :=
  kproc s = None ∧ allprocs s = None ∧ base_pid s = 0 ∧
  proc_count_mutex s = None ∧ no_proc_sem s = None ∧ trace s = [].

(** An empty memory with the given allocation outcomes ahead. *)
Definition initial_state (o : list bool) : kstate :=
  mkState ∅ None 0 None None None 0 None o [].

(** The state a computation leaves behind (the state itself if it
    faults). *)
Definition after {A} (m : M A) (s : kstate) : kstate :=
  match m s with
  | Ok _ s' => s'
  | Fault _ => s
  end.

(** The events between an earlier state and a later one. *)
Definition new_events (s s' : kstate) : list event :=
  drop (length (trace s)) (trace s').

(** ** Relations every step of a computation keeps *)

(** [m] relates the state it starts in to the state it returns in. *)
Definition respects {A} (R : kstate → kstate → Prop) (m : M A) : Prop :=
  ∀ s a s', m s = Ok a s' → R s s'.

(** Only events in [P] are added to the trace. *)
Definition emits (P : event → Prop) (s s' : kstate) : Prop :=
  ∃ tr, trace s' = trace s ++ tr ∧ Forall P tr.

(** [walks b l b']: counting up from [b] with the wrap-around of [pid_t]
    visits exactly the values [l] and ends at [b']. *)
Fixpoint walks (b : Z) (l : list Z) (b' : Z) : Prop :=
  match l with
  | [] => b' = b
  | x :: rest => x = s32 (b + 1) ∧ walks x rest b'
  end.

(** The identifiers issued between two states are the counter's steps. *)
Definition counts (s s' : kstate) : Prop :=
  ∃ tr, trace s' = trace s ++ tr ∧
        walks (base_pid s) (issued tr) (base_pid s').

(** The identifiers [1 .. n]. *)
Definition first_pids (n : nat) : list Z := Z.of_nat <$> seq 1 n.

(** ** A running system for the examples *)

(** Thread 1 runs in process 2 (identifier 1), whose working directory
    is vnode 3 with one reference; semaphore 4 is [proc_count_mutex] and
    semaphore 5 is [no_proc_sem]; array 6 is the registry. *)
Definition demo_proc : proc :=
  mkProc None false [1%positive] None (Some 3%positive) None 1 false 0
         None None None [].
Definition demo_state : kstate :=
  mkState
    (list_to_map
       [(1%positive, OThread (Some 2%positive));
        (2%positive, OProc demo_proc);
        (3%positive, OVnode 1);
        (4%positive, OSem "proc_count_mutex" 1);
        (5%positive, OSem "no_proc_sem" 0);
        (6%positive, OArr [2%positive])])
    (Some 2%positive) 0 (Some 4%positive) (Some 5%positive)
    (Some 6%positive) 1 (Some 1%positive) [] [].

(** The discipline the specification asks of [proc_create_runprogram]
    when the current process [cp] has a working directory: [cp]'s
    spinlock is taken to read the pointer and released before the
    reference count is incremented, and no increment runs under a
    spinlock. *)
Definition cwd_lock_discipline (UW : bool) (name : string) (s : kstate)
  : Prop :=
  ∀ cp d v r s',
    curproc s = Ok (Some cp) s → proc_at s cp = Some d → p_cwd d = Some v →
    proc_create_runprogram UW name s = Ok r s' →
    released_before_incref cp (new_events s s') = true ∧
    incref_under_lock [] (new_events s s') = false.

(** What a computation returns ([d] if it faults). *)
Definition returned {A} (m : M A) (s : kstate) (d : A) : A :=
  match m s with
  | Ok a _ => a
  | Fault _ => d
  end.

(** The boot thread (thread 1, attached to no process yet) entering
    proc.c for the first time. *)
Definition boot_demo_state : kstate :=
  mkState {[1%positive := OThread None]} None 0 None None None 0
          (Some 1%positive) [] [].

(** Boot, attach the boot thread to the kernel process (which
    [proc_bootstrap] allocates at address 2), then start and reap a few
    programs. *)
Definition demo_calls : list call :=
  [CBootstrap; CAddThread (Some 2%positive) (Some 1%positive);
   CCreateRun "sh"; CDestroyNth 0; CCreateRun "ls"; CGenPid;
   CCreateRun "cat"; CDestroyNth 1].

(** [demo_state] with one more thread, 7, attached to no process, and
    the given allocation outcomes ahead. *)
Definition demo_free_thread (o : list bool) : kstate :=
  upd_heap <[7%positive:=OThread None]> (set_oracle o demo_state).

Lemma u32_small z : 0 ≤ z < 2 ^ 32 → u32 z = z.
Proof. intros. unfold u32, UINT_MOD. apply Z.mod_small. lia. Qed.

Lemma ascending_cons x l :
  ascending (x :: l) = true ↔ (match l with [] => True | y :: _ => x < y end) ∧ ascending l = true.
Proof.
  destruct l as [|y l]; simpl.
  - tauto.
  - rewrite andb_true_iff, bool_decide_eq_true. tauto.
Qed.

Lemma ascending_lookup_lt l i j x y :
  ascending l = true → l !! i = Some x → l !! j = Some y → (i < j)%nat → x < y.
Proof.
  revert i j x. induction l as [|a l IH]; intros i j x Hs Hi Hj Hlt; [done|].
  apply ascending_cons in Hs as [Hh Hs].
  destruct j as [|j]; [lia|]. simpl in Hj.
  destruct i as [|i]; simpl in Hi.
  - injection Hi as ->.
    destruct l as [|b l]; [done|].
    destruct j as [|j]; simpl in Hj.
    + by injection Hj as ->.
    + assert (b < y); [|lia]. eapply (IH 0%nat (S j)); eauto. lia.
  - eapply IH; eauto. lia.
Qed.

Lemma ascending_lookup_inj l i j x :
  ascending l = true → l !! i = Some x → l !! j = Some x → i = j.
Proof.
  intros Hs Hi Hj.
  destruct (Nat.lt_trichotomy i j) as [H|[H|H]]; [|done|].
  - pose proof (ascending_lookup_lt _ _ _ _ _ Hs Hi Hj H). lia.
  - pose proof (ascending_lookup_lt _ _ _ _ _ Hs Hj Hi H). lia.
Qed.

Lemma procs_view_get s r l pids i k :
  procs_view s r l pids → pids !! i = Some k →
  ∃ x d, array_get r (Z.of_nat i) s = Ok x s ∧ rd_proc (Some x) s = Ok d s ∧ p_id d = k.
Proof.
  intros [Hrd Hm] Hk.
  apply mapM_Some in Hm.
  destruct (Forall2_lookup_r _ _ _ _ _ Hm Hk) as (x & Hx & Hp).
  unfold pid_at in Hp. destruct (heap s !! x) as [[d| | | | | | | |]|] eqn:Hh; try done.
  injection Hp as Hp.
  exists x, d. split; [|split; [|done]].
  - unfold array_get, bind. rewrite Hrd.
    rewrite bool_decide_eq_true_2.
    + by rewrite Nat2Z.id, Hx.
    + apply lookup_lt_Some in Hx. lia.
  - unfold rd_proc, bind, deref. by rewrite Hh.
Qed.

Lemma procs_view_get_oob s r l pids i :
  procs_view s r l pids → Z.of_nat (length l) ≤ i →
  array_get r i s = Fault OutOfBounds.
Proof.
  intros [Hrd _] Hi. unfold array_get, bind. rewrite Hrd.
  rewrite bool_decide_eq_false_2; [done|lia].
Qed.

Lemma procs_view_length s r l pids : procs_view s r l pids → length pids = length l.
Proof. intros [_ Hm]. apply mapM_Some in Hm. symmetry. by eapply Forall2_length. Qed.

Lemma index_loop_step s r pid low high fuel x d :
  high >= low →
  array_get r (u32 (high + low) / 2) s = Ok x s → rd_proc (Some x) s = Ok d s →
  index_loop (S fuel) r pid low high s =
    if bool_decide (pid = p_id d) then Ok (u32 (high + low) / 2) s
    else if bool_decide (pid < p_id d)
         then index_loop fuel r pid low (u32 (u32 (high + low) / 2 - 1)) s
         else index_loop fuel r pid (u32 (u32 (high + low) / 2 + 1)) high s.
Proof.
  intros Hge Hg Hd. simpl. rewrite bool_decide_eq_true_2 by done.
  unfold bind. rewrite Hg, Hd. by repeat case_bool_decide.
Qed.

Lemma index_loop_found s r l pids pid (i : nat) :
  procs_view s r l pids → ascending pids = true → Z.of_nat (length l) < 2 ^ 31 →
  pids !! i = Some pid →
  ∀ fuel low high,
    0 ≤ low ≤ Z.of_nat i → Z.of_nat i ≤ high < Z.of_nat (length l) →
    high - low < Z.of_nat fuel →
    index_loop fuel r pid low high s = Ok (Z.of_nat i) s.
Proof.
  intros Hv Hs Hn Hi. induction fuel as [|fuel IH]; intros low high Hl Hh Hf; [lia|].
  simpl. rewrite bool_decide_eq_true_2 by lia.
  rewrite u32_small by lia.
  assert (Hp : low ≤ (high + low) / 2 ≤ high).
  { split; [apply Z.div_le_lower_bound|apply Z.div_le_upper_bound]; lia. }
  set (probe := (high + low) / 2) in *.
  assert (Hpn : (Z.to_nat probe < length pids)%nat).
  { rewrite (procs_view_length _ _ _ _ Hv). lia. }
  destruct (lookup_lt_is_Some_2 _ _ Hpn) as [k Hk].
  destruct (procs_view_get _ _ _ _ _ _ Hv Hk) as (x & d & Hg & Hd & Hpid).
  rewrite Z2Nat.id in Hg by lia.
  unfold bind at 1. rewrite Hg. unfold bind at 1. rewrite Hd.
  case_bool_decide as E1.
  - subst k. rewrite <- E1 in Hk.
    rewrite (ascending_lookup_inj _ _ _ _ Hs Hi Hk). rewrite Z2Nat.id by lia. done.
  - subst k. case_bool_decide as E2.
    + assert (i < Z.to_nat probe)%nat.
      { destruct (decide (i < Z.to_nat probe)%nat) as [|Hge]; [done|].
        assert (Z.to_nat probe < i)%nat.
        { destruct (decide (Z.to_nat probe = i)) as [<-|]; [|lia]. congruence. }
        pose proof (ascending_lookup_lt _ _ _ _ _ Hs Hk Hi). lia. }
      rewrite u32_small by lia. apply IH; lia.
    + assert (Z.to_nat probe < i)%nat.
      { destruct (decide (Z.to_nat probe < i)%nat) as [|Hge]; [done|].
        assert (i < Z.to_nat probe)%nat.
        { destruct (decide (Z.to_nat probe = i)) as [<-|]; [|lia]. congruence. }
        pose proof (ascending_lookup_lt _ _ _ _ _ Hs Hi Hk). lia. }
      rewrite u32_small by lia. apply IH; lia.
Qed.

Lemma index_loop_finishes s r l pids pid :
  procs_view s r l pids → Z.of_nat (length l) < 2 ^ 31 →
  ∀ fuel low high,
    (0 ≤ low ∧ high < Z.of_nat (length l) ∧ low ≤ high + 1 ∧
     high - low + 1 < Z.of_nat fuel) ∨
    (low = 0 ∧ high = 2 ^ 32 - 1 ∧ (0 < fuel)%nat) →
    (∃ i : nat, pids !! i = Some pid ∧
                index_loop fuel r pid low high s = Ok (Z.of_nat i) s) ∨
    index_loop fuel r pid low high s = Ok (2 ^ 32 - 1) s ∨
    index_loop fuel r pid low high s = Fault OutOfBounds.
Proof.
  intros Hv Hn. induction fuel as [|fuel IH]; intros low high H; [lia|].
  destruct H as [(Hl & Hh & Hlh & Hf)|(-> & -> & _)].
  - destruct (decide (high >= low)) as [Hge|Hlt].
    2:{ right; left. simpl. by rewrite bool_decide_eq_false_2. }
    assert (Hp : low ≤ (high + low) / 2 ≤ high).
    { split; [apply Z.div_le_lower_bound|apply Z.div_le_upper_bound]; lia. }
    assert (Hu : u32 (high + low) = high + low) by (apply u32_small; lia).
    assert (Hpn : (Z.to_nat ((high + low) / 2) < length pids)%nat).
    { rewrite (procs_view_length _ _ _ _ Hv). lia. }
    destruct (lookup_lt_is_Some_2 _ _ Hpn) as [k Hk].
    destruct (procs_view_get _ _ _ _ _ _ Hv Hk) as (x & d & Hg & Hd & Hpid).
    rewrite Z2Nat.id in Hg by lia. rewrite <- Hu in Hg.
    rewrite (index_loop_step _ _ _ _ _ _ _ _ Hge Hg Hd). rewrite Hu.
    case_bool_decide as E1.
    + left. exists (Z.to_nat ((high + low) / 2)). rewrite Z2Nat.id by lia.
      split; [congruence|done].
    + case_bool_decide as E2.
      * destruct (decide ((high + low) / 2 = 0)) as [Hz|Hz].
        -- rewrite Hz. replace (u32 (0 - 1)) with (2 ^ 32 - 1) by done.
           assert (low = 0) as -> by lia.
           apply IH. right. lia.
        -- rewrite u32_small by lia. apply IH. left. lia.
      * rewrite u32_small by lia. apply IH. left. lia.
  - right; right. simpl.
    replace (u32 (2 ^ 32 - 1 + 0) / 2) with (2 ^ 31 - 1) by done.
    unfold bind. erewrite procs_view_get_oob; [done|done|lia].
Qed.

Lemma procarray_proc_index_by_pid_eq s r l pid :
  rd_array r s = Ok l s →
  procarray_proc_index_by_pid r pid s =
    index_loop (length l + 2) r pid 0 (u32 (Z.of_nat (length l) - 1)) s.
Proof.
  intros Hrd. unfold procarray_proc_index_by_pid, array_num, bind.
  rewrite Hrd. unfold ret. by rewrite Nat2Z.id.
Qed.

Lemma procarray_proc_index_by_pid_finishes s r l pids pid :
  procs_view s r l pids → Z.of_nat (length l) < 2 ^ 31 →
  (∃ i : nat, pids !! i = Some pid ∧
              procarray_proc_index_by_pid r pid s = Ok (Z.of_nat i) s) ∨
  procarray_proc_index_by_pid r pid s = Ok (2 ^ 32 - 1) s ∨
  procarray_proc_index_by_pid r pid s = Fault OutOfBounds.
Proof.
  intros Hv Hn. rewrite (procarray_proc_index_by_pid_eq _ _ _ _ (proj1 Hv)).
  apply (index_loop_finishes _ _ _ _ _ Hv Hn).
  destruct (decide (length l = 0%nat)) as [E|E].
  - right. rewrite E. split; [done|]. split; [done|lia].
  - left. rewrite u32_small by lia. lia.
Qed.

Lemma procarray_proc_index_by_pid_found s r l pids pid (i : nat) :
  procs_view s r l pids → ascending pids = true → Z.of_nat (length l) < 2 ^ 31 →
  pids !! i = Some pid →
  procarray_proc_index_by_pid r pid s = Ok (Z.of_nat i) s.
Proof.
  intros Hv Hs Hn Hi. rewrite (procarray_proc_index_by_pid_eq _ _ _ _ (proj1 Hv)).
  pose proof (lookup_lt_Some _ _ _ Hi) as Hlt.
  rewrite (procs_view_length _ _ _ _ Hv) in Hlt.
  rewrite u32_small by lia.
  eapply index_loop_found; eauto; lia.
Qed.

Lemma procarray_proc_by_pid_found s r l pids pid (i : nat) :
  procs_view s r l pids → ascending pids = true → Z.of_nat (length l) < 2 ^ 31 →
  pids !! i = Some pid →
  ∃ p, l !! i = Some p ∧ pid_at s p = Some pid ∧
       procarray_proc_by_pid r pid s = Ok (Some p) s.
Proof.
  intros Hv Hs Hn Hi. unfold procarray_proc_by_pid.
  unfold bind at 1.
  rewrite (procarray_proc_index_by_pid_found _ _ _ _ _ _ Hv Hs Hn Hi).
  destruct (procs_view_get _ _ _ _ _ _ Hv Hi) as (x & d & Hg & Hd & Hpid).
  unfold bind. rewrite Hg. exists x. split; [|split; [|done]].
  - unfold array_get, bind in Hg. rewrite (proj1 Hv) in Hg.
    case_bool_decide; [|done]. rewrite Nat2Z.id in Hg.
    destruct (l !! i); by inversion Hg.
  - unfold rd_proc, bind, deref in Hd. unfold pid_at.
    destruct (heap s !! x) as [[]|]; inversion Hd; by subst.
Qed.

Lemma procarray_proc_by_pid_miss s r l pids pid :
  procs_view s r l pids → Z.of_nat (length l) < 2 ^ 31 →
  pid ∉ pids →
  procarray_proc_by_pid r pid s = Fault OutOfBounds.
Proof.
  intros Hv Hn Hnot. unfold procarray_proc_by_pid. unfold bind at 1.
  destruct (procarray_proc_index_by_pid_finishes _ _ _ _ pid Hv Hn)
    as [(i & Hi & _)|[->| ->]]; [|
    |done].
  - exfalso. apply Hnot. by eapply list_elem_of_lookup_2.
  - unfold bind. erewrite procs_view_get_oob; [done|done|lia].
Qed.

(** ** The monad *)

Lemma bind_Ok {A B} (m : M A) (k : A → M B) s b s' :
  bind m k s = Ok b s' ↔ ∃ a s1, m s = Ok a s1 ∧ k a s1 = Ok b s'.
Proof.
  unfold bind. destruct (m s) as [a s1|f]; split.
  - eauto.
  - by intros (? & ? & [= <- <-] & ?).
  - done.
  - by intros (? & ? & ? & ?).
Qed.

Lemma bind_eq {A B} (m : M A) (k : A → M B) s a s1 :
  m s = Ok a s1 → bind m k s = k a s1.
Proof. unfold bind. by intros ->. Qed.

Lemma bind_fault {A B} (m : M A) (k : A → M B) s f :
  m s = Fault f → bind m k s = Fault f.
Proof. unfold bind. by intros ->. Qed.

(** ** Relations kept by every step *)

Section Respects.
Context (R : kstate → kstate → Prop) `{!PreOrder R}.

Lemma respects_ret {A} (a : A) : respects R (ret a).
Proof. intros s a' s' [= _ <-]. reflexivity. Qed.

Lemma respects_fail {A} f : respects R (@fail A f).
Proof. by intros s a s'. Qed.

Lemma respects_gets {A} (f : kstate → A) : respects R (gets f).
Proof. intros s a s' [= _ <-]. reflexivity. Qed.

Lemma respects_modify f : (∀ s, R s (f s)) → respects R (modify f).
Proof. intros H s a s' [= _ <-]. apply H. Qed.

Lemma respects_bind {A B} (m : M A) (k : A → M B) :
  respects R m → (∀ a, respects R (k a)) → respects R (bind m k).
Proof.
  intros Hm Hk s b s' (a & s1 & H1 & H2)%bind_Ok.
  transitivity s1; [by eapply Hm|by eapply Hk].
Qed.

Lemma respects_deref p : respects R (deref p).
Proof.
  intros s a s' H. unfold deref in H.
  destruct p; [|done]. destruct (heap s !! l); [|done].
  injection H as _ <-. reflexivity.
Qed.

Lemma respects_draw : (∀ v s, R s (set_oracle v s)) → respects R draw.
Proof.
  intros Ho s a s' H. unfold draw in H.
  destruct (oracle s); injection H as _ <-; [reflexivity|apply Ho].
Qed.
End Respects.

(** ** Events *)

Global Instance emits_preorder P : PreOrder (emits P).
Proof.
  split.
  - intros s. exists []. by rewrite app_nil_r.
  - intros s1 s2 s3 (t1 & H1 & F1) (t2 & H2 & F2).
    exists (t1 ++ t2). rewrite H2, H1, app_assoc. split; [done|].
    by apply Forall_app.
Qed.

Lemma emits_same P s s' : trace s' = trace s → emits P s s'.
Proof. intros H. exists []. by rewrite app_nil_r. Qed.

Lemma emits_log (P : event → Prop) e s : P e → emits P s (log e s).
Proof. intros H. exists [e]. split; [done|]. by constructor. Qed.

Lemma respects_index_loop R `{!PreOrder R} fuel r pid low high :
  respects R (rd_array r) → (∀ p, respects R (rd_proc p)) →
  respects R (index_loop fuel r pid low high).
Proof.
  intros Ha Hp. revert low high. induction fuel as [|fuel IH]; intros low high; simpl.
  - by apply (respects_fail R).
  - case_bool_decide; [|by apply (respects_ret R)].
    apply (respects_bind R).
    { unfold array_get. apply (respects_bind R); [done|]. intros l.
      case_bool_decide; [|by apply (respects_fail R)].
      destruct (l !! _); [by apply (respects_ret R)|by apply (respects_fail R)]. }
    intros p. apply (respects_bind R); [done|]. intros d.
    repeat case_bool_decide; [by apply (respects_ret R)|apply IH..].
Qed.

Lemma respects_remthread_scan R `{!PreOrder R} k proc t i :
  (∀ i, respects R (threadarray_get (AThreads proc) i)) →
  (∀ i, respects R (threadarray_remove (AThreads proc) i)) →
  respects R (spinlock_release proc) →
  respects R (wr_thread (Some t) None) →
  respects R (remthread_scan k proc t i).
Proof.
  intros Hg Hr Hs Hw. revert i. induction k as [|k IH]; intros i; simpl.
  - by apply (respects_ret R).
  - apply (respects_bind R); [done|]. intros x.
    case_bool_decide; [|apply IH].
    repeat (apply (respects_bind R); [done|intros _]).
    by apply (respects_ret R).
Qed.

Ltac head_of t :=
  match t with
  | ?f _ => head_of f
  | _ => t
  end.

Ltac resp_step :=
  match goal with
  | |- respects ?R (bind _ _) => apply (respects_bind R); [|intros ?]
  | |- respects ?R (ret _) => apply (respects_ret R)
  | |- respects ?R (fail _) => apply (respects_fail R)
  | |- respects ?R (gets _) => apply (respects_gets R)
  | |- respects ?R (modify _) => apply (respects_modify R); intros ?
  | |- respects ?R (deref _) => apply (respects_deref R)
  | |- respects ?R draw => apply (respects_draw R); intros ? ?
  | |- respects _ (if ?c then _ else _) => destruct c
  | |- respects _ (match ?x with _ => _ end) => destruct x
  | |- respects ?R (index_loop _ _ _ _ _) =>
      apply (respects_index_loop R); [|intros ?]
  | |- respects ?R (remthread_scan _ _ _ _) =>
      apply (respects_remthread_scan R); [intros ?|intros ?| |]
  | |- respects _ ?m => let h := head_of m in unfold h
  end.

Ltac emits_side :=
  match goal with
  | |- emits _ _ (log _ _) => apply emits_log; done
  | |- emits _ _ _ => apply emits_same; done
  end.

Ltac emits_go := repeat (first [resp_step | emits_side]).

(** With [UW] defined, [proc_create_runprogram] takes no spinlock. *)
Lemma proc_create_runprogram_UW_emits name :
  respects (emits (λ e, is_lock_event e = false))
           (proc_create_runprogram true name).
Proof. unfold proc_create_runprogram, proc_create. emits_go. Qed.

Lemma emits_new_events P s s' :
  emits P s s' → trace s' = trace s ++ new_events s s' ∧ Forall P (new_events s s').
Proof.
  intros (tr & H & F). unfold new_events. rewrite H, drop_app_length. done.
Qed.

Lemma no_lock_no_incref_under_lock tr :
  Forall (λ e, is_lock_event e = false) tr → incref_under_lock [] tr = false.
Proof.
  induction 1 as [|e tr He _ IH]; [done|].
  destruct e; simpl in *; try done.
Qed.

(** ** The identifier allocator *)

Lemma issued_app t1 t2 : issued (t1 ++ t2) = issued t1 ++ issued t2.
Proof.
  induction t1 as [|e t1 IH]; [done|]. destruct e; simpl; by rewrite ?IH.
Qed.

Lemma walks_app b l1 b1 l2 b2 :
  walks b l1 b1 → walks b1 l2 b2 → walks b (l1 ++ l2) b2.
Proof.
  revert b. induction l1 as [|x l1 IH]; simpl; intros b.
  - by intros ->.
  - intros [-> H1] H2. split; [done|]. by apply IH.
Qed.

Global Instance counts_preorder : PreOrder counts.
Proof.
  split.
  - intros s. exists []. by rewrite app_nil_r.
  - intros s1 s2 s3 (t1 & H1 & W1) (t2 & H2 & W2).
    exists (t1 ++ t2). rewrite H2, H1, app_assoc. split; [done|].
    rewrite issued_app. by eapply walks_app.
Qed.

Lemma counts_same s s' :
  trace s' = trace s → base_pid s' = base_pid s → counts s s'.
Proof. intros Ht Hb. exists []. by rewrite app_nil_r. Qed.

Lemma counts_log e s :
  (if e is EvGenPid _ then False else True) → counts s (log e s).
Proof. intros He. exists [e]. split; [done|]. by destruct e. Qed.

Lemma gen_pid_counts : respects counts gen_pid.
Proof.
  intros s a s' H. unfold gen_pid, bind, gets, modify, ret in H.
  injection H as _ <-. exists [EvGenPid (s32 (base_pid s + 1))].
  split; [done|]. simpl. done.
Qed.

Ltac counts_side :=
  match goal with
  | |- counts _ (log _ _) => apply counts_log; done
  | |- counts _ _ => apply counts_same; done
  end.

Ltac counts_go :=
  repeat (first [apply gen_pid_counts | resp_step | counts_side]).

Lemma proc_create_counts UW name : respects counts (proc_create UW name).
Proof. unfold proc_create. destruct UW; counts_go. Qed.

Lemma proc_create_runprogram_counts UW name :
  respects counts (proc_create_runprogram UW name).
Proof.
  unfold proc_create_runprogram.
  apply (respects_bind counts); [apply proc_create_counts|]. intros p.
  destruct UW; counts_go.
Qed.

Lemma proc_destroy_counts UW p : respects counts (proc_destroy UW p).
Proof. unfold proc_destroy, curproc_setas. destruct UW; counts_go. Qed.

Lemma proc_bootstrap_counts UW : respects counts (proc_bootstrap UW).
Proof.
  unfold proc_bootstrap.
  apply (respects_bind counts); [apply proc_create_counts|]. intros p.
  destruct UW; counts_go.
Qed.

Lemma run_call_counts UW c ds : respects counts (run_call UW c ds).
Proof.
  destruct c; simpl.
  - apply (respects_bind counts); [apply proc_bootstrap_counts|]. intros; counts_go.
  - apply (respects_bind counts); [apply proc_create_counts|]. intros; counts_go.
  - apply (respects_bind counts); [apply proc_create_runprogram_counts|]. intros; counts_go.
  - apply (respects_bind counts); [apply proc_destroy_counts|]. intros; counts_go.
  - destruct (ds !! k); [|counts_go].
    apply (respects_bind counts); [apply proc_destroy_counts|]. intros; counts_go.
  - counts_go.
  - unfold proc_addthread. counts_go.
  - unfold proc_remthread. counts_go.
  - unfold curproc_getas. destruct UW; counts_go.
  - unfold curproc_setas. counts_go.
Qed.

Lemma run_calls_counts UW cs : ∀ ds, respects counts (run_calls UW cs ds).
Proof.
  induction cs as [|c cs IH]; intros ds; simpl.
  - counts_go.
  - apply (respects_bind counts); [apply run_call_counts|]. intros; apply IH.
Qed.

Lemma s32_small z : - 2 ^ 31 ≤ z < 2 ^ 31 → s32 z = z.
Proof. intros. unfold s32. rewrite Z.mod_small; lia. Qed.

Lemma first_pids_S n : first_pids (S n) = first_pids n ++ [Z.of_nat (S n)].
Proof. unfold first_pids. rewrite seq_S, fmap_app. done. Qed.

Lemma first_pids_lookup n i x :
  first_pids n !! i = Some x → x = Z.of_nat (S i).
Proof.
  unfold first_pids. rewrite list_lookup_fmap.
  destruct (seq 1 n !! i) as [k|] eqn:E; [|done].
  apply lookup_seq in E as [-> _]. by intros [= <-].
Qed.

(** Counting up from [b] without reaching the largest [pid_t]. *)
Lemma walks_no_wrap l : ∀ b b',
  walks b l b' → 0 ≤ b → b + Z.of_nat (length l) ≤ PID_MAX →
  l = (λ i, b + i) <$> first_pids (length l) ∧ b' = b + Z.of_nat (length l).
Proof.
  unfold PID_MAX.
  induction l as [|x l IH]; simpl; intros b b' H Hb Hn.
  - split; [done|lia].
  - destruct H as [-> H]. rewrite s32_small in * by lia.
    destruct (IH _ _ H) as [E ->]; [lia..|]. split; [|lia].
    rewrite E at 1. unfold first_pids. simpl. f_equal.
    rewrite <- (fmap_S_seq 1), <- !list_fmap_compose.
    apply list_fmap_ext. intros _ k _. simpl. lia.
Qed.

Lemma issued_of_counts s s' :
  counts s s' → trace s = [] → base_pid s = 0 →
  Z.of_nat (length (issued (trace s'))) ≤ PID_MAX →
  issued (trace s') = first_pids (length (issued (trace s'))) ∧
  base_pid s' = Z.of_nat (length (issued (trace s'))).
Proof.
  intros (tr & Ht & W) Hnil Hb Hn. rewrite Ht, Hnil in *. simpl in *.
  rewrite Hb in W. destruct (walks_no_wrap _ _ _ W) as [E ->]; [lia..|].
  split; [|lia]. rewrite E at 1.
  transitivity (id <$> first_pids (length (issued tr))); [|apply list_fmap_id].
  apply list_fmap_ext. intros _ k _. simpl. lia.
Qed.

(** ** Running the primitives forward *)

Lemma deref_eq s l o : heap s !! l = Some o → deref (Some l) s = Ok o s.
Proof. unfold deref. by intros ->. Qed.

Lemma rd_proc_eq s p d :
  heap s !! p = Some (OProc d) → rd_proc (Some p) s = Ok d s.
Proof. intros H. unfold rd_proc. by rewrite (bind_eq _ _ _ _ _ (deref_eq _ _ _ H)). Qed.

Lemma wr_proc_eq s p d f :
  heap s !! p = Some (OProc d) →
  wr_proc (Some p) f s = Ok tt (upd_heap <[p:=OProc (f d)]> s).
Proof. intros H. unfold wr_proc. by rewrite (bind_eq _ _ _ _ _ (rd_proc_eq _ _ _ H)). Qed.

Lemma rd_thread_eq s t tp :
  heap s !! t = Some (OThread tp) → rd_thread (Some t) s = Ok tp s.
Proof. intros H. unfold rd_thread. by rewrite (bind_eq _ _ _ _ _ (deref_eq _ _ _ H)). Qed.

Lemma wr_thread_eq s t tp tp' :
  heap s !! t = Some (OThread tp) →
  wr_thread (Some t) tp' s = Ok tt (upd_heap <[t:=OThread tp']> s).
Proof. intros H. unfold wr_thread. by rewrite (bind_eq _ _ _ _ _ (rd_thread_eq _ _ _ H)). Qed.

Lemma curproc_eq s t tp :
  curthread s = Some t → heap s !! t = Some (OThread tp) → curproc s = Ok tp s.
Proof.
  intros Hc H. unfold curproc, bind, gets. rewrite Hc. by apply rd_thread_eq.
Qed.

Lemma spinlock_acquire_eq s p d :
  heap s !! p = Some (OProc d) → p_lock d = false →
  spinlock_acquire (Some p) s =
    Ok tt (log (EvAcquire p) (upd_heap <[p:=OProc (with_lock true d)]> s)).
Proof.
  intros H Hl. unfold spinlock_acquire.
  rewrite (bind_eq _ _ _ _ _ (rd_proc_eq _ _ _ H)), Hl.
  by rewrite (bind_eq _ _ _ _ _ (wr_proc_eq _ _ _ _ H)).
Qed.

Lemma spinlock_release_eq s p d :
  heap s !! p = Some (OProc d) → p_lock d = true →
  spinlock_release (Some p) s =
    Ok tt (log (EvRelease p) (upd_heap <[p:=OProc (with_lock false d)]> s)).
Proof.
  intros H Hl. unfold spinlock_release.
  rewrite (bind_eq _ _ _ _ _ (rd_proc_eq _ _ _ H)), Hl. unfold KASSERT.
  rewrite (bind_eq _ _ _ tt s) by done.
  by rewrite (bind_eq _ _ _ _ _ (wr_proc_eq _ _ _ _ H)).
Qed.

(** Lookups in the heap of an updated state. *)
Ltac heap_simpl :=
  cbn [heap kproc proc_count proc_count_mutex no_proc_sem allprocs base_pid
       curthread oracle trace upd_heap set_kproc set_proc_count
       set_proc_count_mutex set_no_proc_sem set_allprocs set_base_pid
       set_oracle log] in *.

Ltac heap_solve := heap_simpl; simplify_map_eq; done.

Lemma kstate_eq a b :
  heap a = heap b → kproc a = kproc b → proc_count a = proc_count b →
  proc_count_mutex a = proc_count_mutex b → no_proc_sem a = no_proc_sem b →
  allprocs a = allprocs b → base_pid a = base_pid b →
  curthread a = curthread b → oracle a = oracle b → trace a = trace b →
  a = b.
Proof.
  destruct a as [h1 k1 c1 m1 n1 a1 b1 t1 o1 r1], b as [h2 k2 c2 m2 n2 a2 b2 t2 o2 r2].
  simpl. by intros -> -> -> -> -> -> -> -> -> ->.
Qed.

Ltac state_eq := apply kstate_eq; heap_simpl; try reflexivity.

Lemma swap_lock_restored newas d :
  p_lock d = false →
  with_lock false (with_addrspace newas (with_lock true d)) = with_addrspace newas d.
Proof. destruct d; simpl. by intros ->. Qed.

(** C9: [curproc_setas] returns the address space the current process
    held and leaves the descriptor as it was except that [p_addrspace] is
    the new value (the spinlock is free again); no other object and no
    global changes. *)
Theorem curproc_setas_swaps newas s t p d :
  curthread s = Some t →
  heap s !! t = Some (OThread (Some p)) →
  heap s !! p = Some (OProc d) →
  p_lock d = false →
  ∃ s',
    curproc_setas newas s = Ok (p_addrspace d) s' ∧
    proc_at s' p = Some (with_addrspace newas d) ∧
    heap s' = <[p:=OProc (with_addrspace newas d)]> (heap s) ∧
    (kproc s', allprocs s', base_pid s', curthread s', proc_count s',
     proc_count_mutex s', no_proc_sem s', oracle s')
    = (kproc s, allprocs s, base_pid s, curthread s, proc_count s,
       proc_count_mutex s, no_proc_sem s, oracle s) ∧
    trace s' = trace s ++ [EvAcquire p; EvRelease p].
Proof.
  intros Hc Ht Hp Hl. unfold curproc_setas.
  rewrite (bind_eq _ _ _ _ _ (curproc_eq _ _ _ Hc Ht)).
  rewrite (bind_eq _ _ _ _ _ (spinlock_acquire_eq _ _ _ Hp Hl)).
  erewrite bind_eq; [|apply rd_proc_eq; heap_solve].
  erewrite bind_eq; [|eapply wr_proc_eq; heap_solve].
  erewrite bind_eq; [|eapply spinlock_release_eq; [heap_solve|done]].
  eexists. split; [reflexivity|]. unfold proc_at. heap_simpl.
  rewrite !insert_insert_eq, swap_lock_restored by done.
  rewrite lookup_insert_eq, <- app_assoc. done.
Qed.

Lemma curproc_setas_swaps_witness :
  ∃ s', curproc_setas (Some 9%positive) demo_state = Ok None s' ∧
        proc_at s' 2%positive = Some (with_addrspace (Some 9%positive) demo_proc).
Proof.
  destruct (curproc_setas_swaps (Some 9%positive) demo_state 1%positive
              2%positive demo_proc) as (s' & H1 & H2 & _);
    [vm_compute; reflexivity..|].
  exists s'. split; [exact H1|exact H2].
Defined.

Lemma draw_eq s :
  draw s = Ok (default true (head (oracle s))) (set_oracle (tail (oracle s)) s).
Proof. unfold draw. destruct s as [? ? ? ? ? ? ? ? [|b o] ?]; done. Qed.

Lemma with_lock_restored d :
  p_lock d = false → with_lock false (with_lock true d) = d.
Proof. destruct d; simpl. by intros ->. Qed.

Lemma with_lock_threads_restored l d :
  p_lock d = false →
  with_lock false (with_threads l (with_lock true d)) = with_threads l d.
Proof. destruct d; simpl. by intros ->. Qed.

(** What [proc_addthread] does to a free thread, by the outcome of the
    allocation inside [threadarray_add]. *)
Lemma proc_addthread_eq s p t d :
  heap s !! t = Some (OThread None) →
  heap s !! p = Some (OProc d) →
  p_lock d = false →
  proc_addthread (Some p) (Some t) s =
    if default true (head (oracle s)) then
      Ok 0 (upd_heap (λ h, <[t:=OThread (Some p)]>
                             (<[p:=OProc (with_threads (p_threads d ++ [t]) d)]> h))
              (log (EvRelease p) (log (EvAcquire p)
                 (set_oracle (tail (oracle s)) s))))
    else
      Ok ENOMEM (log (EvRelease p) (log (EvAcquire p)
                   (set_oracle (tail (oracle s)) s))).
Proof.
  intros Ht Hp Hl. unfold proc_addthread.
  rewrite (bind_eq _ _ _ _ _ (rd_thread_eq _ _ _ Ht)).
  unfold KASSERT. rewrite bool_decide_eq_true_2 by done.
  rewrite (bind_eq _ _ _ tt s) by done.
  rewrite (bind_eq _ _ _ _ _ (spinlock_acquire_eq _ _ _ Hp Hl)).
  unfold threadarray_add, array_add, rd_array, wr_array.
  destruct (default true (head (oracle s))) eqn:Hok.
  - erewrite (bind_eq (bind _ _)).
    2:{ erewrite bind_eq; [|erewrite bind_eq; [reflexivity|apply rd_proc_eq; heap_solve]].
        unfold ret. rewrite (bind_eq _ _ _ _ _ (draw_eq _)). heap_simpl.
        rewrite Hok.
        erewrite bind_eq; [reflexivity|eapply wr_proc_eq; heap_solve]. }
    erewrite bind_eq; [|eapply spinlock_release_eq; [heap_solve|done]].
    unfold ret. rewrite bool_decide_eq_false_2 by (intros ?; done).
    erewrite bind_eq; [|eapply wr_thread_eq; heap_simpl].
    2:{ rewrite lookup_insert_ne; [|intros ->; congruence].
        rewrite lookup_insert_ne; [|intros ->; congruence].
        rewrite lookup_insert_ne; [|intros ->; congruence]. exact Ht. }
    f_equal. state_eq. rewrite !insert_insert_eq.
    by rewrite (with_lock_threads_restored _ _ Hl).
  - erewrite (bind_eq (bind _ _)).
    2:{ erewrite bind_eq; [|erewrite bind_eq; [reflexivity|apply rd_proc_eq; heap_solve]].
        unfold ret. rewrite (bind_eq _ _ _ _ _ (draw_eq _)). heap_simpl.
        rewrite Hok. reflexivity. }
    erewrite bind_eq; [|eapply spinlock_release_eq; [heap_solve|done]].
    unfold ret. rewrite bool_decide_eq_true_2 by done.
    f_equal. state_eq. rewrite !insert_insert_eq, (with_lock_restored _ Hl).
    by apply insert_id.
Qed.

(** C7: [proc_addthread] asserts that the thread's back-reference is
    NULL; when [threadarray_add] fails for lack of memory it returns that
    error and the back-reference is still NULL (memory is as before);
    only on success is the back-reference set to the descriptor, the thread
    having been appended to the membership. *)
Theorem proc_addthread_contract s p t d tp :
  heap s !! t = Some (OThread tp) →
  heap s !! p = Some (OProc d) →
  p_lock d = false →
  match tp with
  | Some _ => proc_addthread (Some p) (Some t) s = Fault AssertFail
  | None =>
      ∃ s',
        if default true (head (oracle s)) then
          proc_addthread (Some p) (Some t) s = Ok 0 s' ∧
          t_proc_of s' t = Some (Some p) ∧
          proc_at s' p = Some (with_threads (p_threads d ++ [t]) d)
        else
          proc_addthread (Some p) (Some t) s = Ok ENOMEM s' ∧
          ENOMEM ≠ 0 ∧
          t_proc_of s' t = Some None ∧
          heap s' = heap s
  end.
Proof.
  intros Ht Hp Hl. destruct tp as [q|].
  - unfold proc_addthread.
    rewrite (bind_eq _ _ _ _ _ (rd_thread_eq _ _ _ Ht)).
    unfold KASSERT. by rewrite bool_decide_eq_false_2.
  - rewrite (proc_addthread_eq _ _ _ _ Ht Hp Hl).
    assert (t ≠ p) by (intros ->; congruence).
    destruct (default true (head (oracle s))); eexists; (split; [reflexivity|]).
    + unfold t_proc_of, proc_at. heap_simpl.
      rewrite lookup_insert_eq, lookup_insert_ne, lookup_insert_eq by done. done.
    + unfold t_proc_of. heap_simpl. rewrite Ht. done.
Qed.

Lemma proc_addthread_contract_witness :
  ∃ s', proc_addthread (Some 2%positive) (Some 7%positive)
          (demo_free_thread [false]) = Ok ENOMEM s' ∧
        t_proc_of s' 7%positive = Some None ∧
        heap s' = heap (demo_free_thread [false]).
Proof.
  pose proof (proc_addthread_contract (demo_free_thread [false]) 2%positive
                7%positive demo_proc None) as H.
  destruct H as (s' & H1 & _ & H3 & H4); [vm_compute; reflexivity..|].
  exists s'. split; [exact H1|]. split; [exact H3|exact H4].
Defined.

Lemma array_get_threads_eq s p d i x :
  heap s !! p = Some (OProc d) → p_threads d !! i = Some x →
  array_get (AThreads (Some p)) (Z.of_nat i) s = Ok x s.
Proof.
  intros Hp Hx. unfold array_get, rd_array.
  erewrite bind_eq; [|erewrite bind_eq; [reflexivity|by apply rd_proc_eq]].
  unfold ret. rewrite bool_decide_eq_true_2.
  - by rewrite Nat2Z.id, Hx.
  - apply lookup_lt_Some in Hx. lia.
Qed.

Lemma array_remove_threads_eq s p d i :
  heap s !! p = Some (OProc d) → (i < length (p_threads d))%nat →
  array_remove (AThreads (Some p)) (Z.of_nat i) s =
    Ok tt (upd_heap <[p:=OProc (with_threads (delete i (p_threads d)) d)]> s).
Proof.
  intros Hp Hi. unfold array_remove, rd_array, wr_array.
  erewrite bind_eq; [|erewrite bind_eq; [reflexivity|by apply rd_proc_eq]].
  unfold ret. rewrite bool_decide_eq_true_2 by lia.
  rewrite Nat2Z.id. by apply wr_proc_eq.
Qed.

(** The scan finds the first occurrence of the thread and removes it. *)
Lemma remthread_scan_eq p t tp s d pre : ∀ front post k,
  heap s !! p = Some (OProc d) → p_lock d = true →
  heap s !! t = Some (OThread tp) →
  p_threads d = front ++ pre ++ t :: post → t ∉ pre →
  (length pre < k)%nat →
  remthread_scan k (Some p) t (Z.of_nat (length front)) s =
    Ok true
       (upd_heap (λ h, <[t:=OThread None]>
                         (<[p:=OProc (with_lock false
                                        (with_threads (front ++ pre ++ post) d))]> h))
                 (log (EvRelease p) s)).
Proof.
  induction pre as [|x pre IH]; intros front post k Hp Hl Ht Hth Hnot Hk.
  - destruct k as [|k]; [simpl in Hk; lia|]. simpl remthread_scan.
    unfold threadarray_get, threadarray_remove.
    erewrite bind_eq.
    2:{ eapply array_get_threads_eq; [done|]. rewrite Hth. simpl.
        by rewrite list_lookup_middle. }
    rewrite bool_decide_eq_true_2 by done.
    erewrite bind_eq.
    2:{ eapply array_remove_threads_eq; [done|]. rewrite Hth.
        rewrite length_app. simpl. lia. }
    erewrite bind_eq; [|eapply spinlock_release_eq; [heap_solve|done]].
    erewrite bind_eq; [|eapply wr_thread_eq; heap_simpl].
    2:{ rewrite !lookup_insert_ne by (intros ->; congruence). exact Ht. }
    unfold ret. f_equal. state_eq.
    rewrite insert_insert_eq. do 3 f_equal.
    rewrite Hth. simpl. rewrite delete_middle. by destruct d.
  - destruct k as [|k]; [simpl in Hk; lia|]. simpl remthread_scan.
    unfold threadarray_get.
    erewrite bind_eq.
    2:{ eapply array_get_threads_eq; [done|]. rewrite Hth. simpl.
        by rewrite list_lookup_middle. }
    apply not_elem_of_cons in Hnot as [Hne Hnot].
    rewrite bool_decide_eq_false_2 by done.
    replace (Z.of_nat (length front) + 1) with (Z.of_nat (length (front ++ [x])))
      by (rewrite length_app; simpl; lia).
    rewrite (IH (front ++ [x]) post k); try done.
    + by rewrite <- !app_assoc.
    + by rewrite <- app_assoc.
    + simpl in Hk. lia.
Qed.

Lemma proc_remthread_eq s p t d pre post :
  heap s !! t = Some (OThread (Some p)) →
  heap s !! p = Some (OProc d) → p_lock d = false →
  p_threads d = pre ++ t :: post → t ∉ pre →
  proc_remthread (Some t) s =
    Ok tt
       (upd_heap (λ h, <[t:=OThread None]>
                         (<[p:=OProc (with_threads (pre ++ post) d)]> h))
                 (log (EvRelease p) (log (EvAcquire p) s))).
Proof.
  intros Ht Hp Hl Hth Hnot. unfold proc_remthread.
  rewrite (bind_eq _ _ _ _ _ (rd_thread_eq _ _ _ Ht)).
  unfold KASSERT. rewrite bool_decide_eq_true_2 by done.
  rewrite (bind_eq _ _ _ tt s) by done.
  rewrite (bind_eq _ _ _ _ _ (spinlock_acquire_eq _ _ _ Hp Hl)).
  unfold threadarray_num, array_num, rd_array.
  erewrite bind_eq.
  2:{ erewrite bind_eq; [reflexivity|].
      erewrite bind_eq; [reflexivity|apply rd_proc_eq; heap_solve]. }
  unfold ret. cbn [p_threads with_lock]. rewrite Nat2Z.id.
  erewrite bind_eq.
  2:{ apply (remthread_scan_eq p t (Some p) _ (with_lock true d) pre [] post).
      - heap_solve.
      - done.
      - heap_simpl. rewrite lookup_insert_ne by (intros ->; congruence). exact Ht.
      - done.
      - done.
      - rewrite Hth, length_app. simpl. lia. }
  f_equal. state_eq. rewrite insert_insert_eq. simpl app.
  do 3 f_equal. destruct d; simpl in *. by subst.
Qed.

Lemma first_occurrence_after_append (l : list loc) t :
  ∃ pre post, l ++ [t] = pre ++ t :: post ∧ (t ∉ pre) ∧
              (pre ++ post ≡ₚ l) ∧ (t ∉ l → pre ++ post = l).
Proof.
  destruct (decide (t ∈ l)) as [Hin|Hnot].
  - apply list_elem_of_split_l in Hin as (l1 & l2 & -> & Hn).
    exists l1, (l2 ++ [t]). split; [by rewrite <- app_assoc|]. split; [done|].
    split; [|intros H; exfalso; apply H; set_solver].
    rewrite (Permutation_app_comm l2), app_assoc.
    change (l1 ++ t :: l2) with (l1 ++ [t] ++ l2). by rewrite app_assoc.
  - exists l, []. rewrite app_nil_r. done.
Qed.

(** C6: after a successful [proc_addthread] of a free thread,
    [proc_remthread] succeeds, the thread's back-reference is NULL again,
    and the membership is the membership before the attach: the same
    threads, as many of them, and the very same array (so without the
    thread) when the thread was not listed before. *)
Theorem proc_addthread_remthread s p t d s1 :
  heap s !! t = Some (OThread None) →
  heap s !! p = Some (OProc d) →
  p_lock d = false →
  proc_addthread (Some p) (Some t) s = Ok 0 s1 →
  ∃ s2 d2,
    proc_remthread (Some t) s1 = Ok tt s2 ∧
    t_proc_of s2 t = Some None ∧
    proc_at s2 p = Some d2 ∧
    length (p_threads d2) = length (p_threads d) ∧
    p_threads d2 ≡ₚ p_threads d ∧
    (t ∉ p_threads d → d2 = d ∧ t ∉ p_threads d2).
Proof.
  intros Ht Hp Hl Hadd.
  assert (Hne : t ≠ p) by (intros ->; congruence).
  rewrite (proc_addthread_eq _ _ _ _ Ht Hp Hl) in Hadd.
  destruct (default true (head (oracle s))); [|discriminate Hadd].
  injection Hadd as <-.
  destruct (first_occurrence_after_append (p_threads d) t)
    as (pre & post & Hsplit & Hnot & Hperm & Hsame).
  rewrite (proc_remthread_eq _ p t (with_threads (p_threads d ++ [t]) d) pre post);
    [| | |exact Hl|exact Hsplit|exact Hnot].
  2:{ heap_simpl. apply lookup_insert_eq. }
  2:{ heap_simpl. rewrite lookup_insert_ne by done. apply lookup_insert_eq. }
  eexists _, _. split; [reflexivity|].
  unfold t_proc_of, proc_at. heap_simpl.
  rewrite lookup_insert_eq, lookup_insert_ne, lookup_insert_eq by done.
  split; [done|]. split; [done|]. cbn [p_threads with_threads].
  split; [by rewrite Hperm|]. split; [done|].
  intros Hn. rewrite (Hsame Hn). split; [by destruct d|done].
Qed.

Lemma proc_addthread_remthread_witness :
  let s1 := after (proc_addthread (Some 2%positive) (Some 7%positive))
                  (demo_free_thread []) in
  ∃ s2 d2, proc_remthread (Some 7%positive) s1 = Ok tt s2 ∧
           t_proc_of s2 7%positive = Some None ∧
           proc_at s2 2%positive = Some d2 ∧
           p_threads d2 ≡ₚ [1%positive].
Proof.
  intros s1.
  destruct (proc_addthread_remthread (demo_free_thread []) 2%positive
              7%positive demo_proc s1) as (s2 & d2 & H1 & H2 & H3 & _ & H5 & _);
    [vm_compute; reflexivity..|].
  exists s2, d2. split; [exact H1|]. split; [exact H2|]. split; [exact H3|exact H5].
Defined.

(** C5 (as amended): along every sequence of calls from the boot state in
    which at most [PID_MAX] identifiers have been issued, the k-th call of
    [gen_pid] returned k: every identifier is positive and strictly greater
    than all earlier ones, whatever was destroyed in between, and the
    counter equals the number of identifiers issued. *)
Theorem gen_pid_strictly_increasing UW cs ds s ds' s' :
  boot_state s →
  run_calls UW cs ds s = Ok ds' s' →
  Z.of_nat (length (issued (trace s'))) ≤ PID_MAX →
  issued (trace s') = first_pids (length (issued (trace s'))) ∧
  base_pid s' = Z.of_nat (length (issued (trace s'))) ∧
  ∀ i j x y, (i < j)%nat →
             issued (trace s') !! i = Some x →
             issued (trace s') !! j = Some y →
             0 < x < y.
Proof.
  intros (_ & _ & Hb & _ & _ & Ht) Hrun Hn.
  destruct (issued_of_counts s s') as [E Hc]; [by eapply run_calls_counts|done..|].
  split; [done|]. split; [done|].
  intros i j x y Hij Hx Hy. rewrite E in Hx, Hy.
  apply first_pids_lookup in Hx, Hy. lia.
Qed.

Lemma gen_pid_strictly_increasing_witness :
  let s' := after (run_calls true demo_calls []) boot_demo_state in
  issued (trace s') = [1; 2; 3; 4; 5] ∧ base_pid s' = 5.
Proof.
  pose proof (gen_pid_strictly_increasing true demo_calls [] boot_demo_state
    (returned (run_calls true demo_calls []) boot_demo_state [])
    (after (run_calls true demo_calls []) boot_demo_state)) as H.
  destruct H as (H1 & H2 & _).
  - repeat split.
  - vm_compute. reflexivity.
  - vm_compute. discriminate.
  - split; [rewrite H1|rewrite H2]; vm_compute; reflexivity.
Defined.

Lemma gen_pid_run UW ds n : ∀ s,
  0 ≤ base_pid s → base_pid s + Z.of_nat n ≤ PID_MAX →
  ∃ s', run_calls UW (repeat CGenPid n) ds s = Ok ds s' ∧
        base_pid s' = base_pid s + Z.of_nat n ∧
        (0 < n → base_pid s' ∈ issued (trace s'))%nat.
Proof.
  unfold PID_MAX. induction n as [|n IH]; intros s Hb Hn.
  - exists s. split; [done|]. split; [lia|]. lia.
  - set (s1 := log (EvGenPid (s32 (base_pid s + 1)))
                   (set_base_pid (s32 (base_pid s + 1)) s)).
    assert (Hb1 : base_pid s1 = base_pid s + 1) by (simpl; apply s32_small; lia).
    destruct (IH s1) as (s' & Hrun & Hbp & Hin); [lia..|].
    exists s'. split; [|split; [lia|]].
    + simpl. exact Hrun.
    + intros _. destruct n as [|n].
      * simpl in Hrun. injection Hrun as <-. rewrite Hb1.
        simpl. rewrite issued_app. simpl. rewrite s32_small by lia.
        apply elem_of_app. right. by apply list_elem_of_singleton.
      * apply Hin. lia.
Qed.

(** C5 (as stated) fails: after [PID_MAX] identifiers the counter wraps,
    and the next call of [gen_pid] returns [PID_MIN], which is neither
    positive nor greater than the identifier issued just before it. *)
Lemma gen_pid_wraps_around :
  ∃ s s',
    run_calls true (repeat CGenPid (Z.to_nat PID_MAX)) [] (initial_state [])
      = Ok [] s ∧
    PID_MAX ∈ issued (trace s) ∧
    gen_pid s = Ok PID_MIN s' ∧
    ¬ (0 < PID_MIN) ∧ ¬ (PID_MAX < PID_MIN).
Proof.
  destruct (gen_pid_run true [] (Z.to_nat PID_MAX) (initial_state []))
    as (s & Hrun & Hb & Hin).
  - done.
  - rewrite Z2Nat.id; [done|]. unfold PID_MAX. lia.
  - rewrite Z2Nat.id in Hb by (unfold PID_MAX; lia).
    change (base_pid (initial_state [])) with 0 in Hb. rewrite Z.add_0_l in Hb.
    exists s. eexists. split; [exact Hrun|]. split.
    { rewrite <- Hb. apply Hin. unfold PID_MAX. lia. }
    split.
    { unfold gen_pid, bind, gets, modify, ret. rewrite Hb. reflexivity. }
    unfold PID_MIN, PID_MAX. lia.
Qed.

(** ** Lookup *)

(** The registry after [proc_bootstrap]: the kernel process alone. *)
Example registry_after_bootstrap :
  registry_pids (after (proc_bootstrap true) (initial_state [])) = Some [1].
Proof. vm_compute. reflexivity. Qed.

(** C1 (fails on the code): a lookup that misses never returns
    not-found.  On the registry holding only the kernel process
    (identifier 1), looking up identifier 0 sends the search to index
    [2^31 - 1] after [high] wraps below zero, and looking up identifier 2
    ends the search with index [2^32 - 1] (the unsigned [-1]), which
    [procarray_proc_by_pid] then reads; on an allocated but empty registry
    the very first probe is at index [2^31 - 1].  Each is an access outside
    the backing array.  A lookup that hits returns the descriptor. *)
Theorem lookup_miss_out_of_bounds :
  let s1 := after (proc_bootstrap true) (initial_state []) in
  let s0 := after (proc_create true "p")
                  (initial_state [true; true; true; true; true; true; true;
                                  false]) in
  registry s1 = Some [1%positive] ∧
  procarray_allprocs_proc_by_pid 1 s1 = Ok (Some 1%positive) s1 ∧
  procarray_allprocs_proc_by_pid 0 s1 = Fault OutOfBounds ∧
  procarray_proc_index_by_pid (AHeap (allprocs s1)) 0 s1 = Fault OutOfBounds ∧
  procarray_proc_index_by_pid (AHeap (allprocs s1)) 2 s1 = Ok (2 ^ 32 - 1) s1 ∧
  procarray_allprocs_proc_by_pid 2 s1 = Fault OutOfBounds ∧
  registry s0 = Some [] ∧ allprocs s0 ≠ None ∧
  procarray_proc_index_by_pid (AHeap (allprocs s0)) 0 s0 = Fault OutOfBounds ∧
  procarray_allprocs_proc_by_pid 0 s0 = Fault OutOfBounds.
Proof. vm_compute. repeat split; discriminate. Qed.

(** ** Unwinding in proc_create *)

(** C2 (fails on the code): the checks after the wait lock and the wait
    condition variable test [p_exit_lk] again, so a failure of either
    allocation is not noticed: [proc_create] goes on, registers the
    descriptor with a NULL [p_wait_lk] (or [p_wait_cv]) and returns it.  A
    failure of [array_create] for the children is not checked at all and
    NULL is dereferenced. *)
Theorem proc_create_wait_lock_failure_not_unwound UW :
  let wait_lk_fails := initial_state [true; true; true; false] in
  let wait_cv_fails := initial_state [true; true; true; true; false] in
  let children_fail := initial_state [true; true; true; true; true; false] in
  let s1 := after (proc_create UW "p") wait_lk_fails in
  let s2 := after (proc_create UW "p") wait_cv_fails in
  (proc_create UW "p" wait_lk_fails = Ok (Some 1%positive) s1 ∧
   p_wait_lk <$> proc_at s1 1%positive = Some None ∧
   registry s1 = Some [1%positive] ∧
   size (heap s1) = 6%nat) ∧
  (proc_create UW "p" wait_cv_fails = Ok (Some 1%positive) s2 ∧
   p_wait_cv <$> proc_at s2 1%positive = Some None ∧
   registry s2 = Some [1%positive]) ∧
  proc_create UW "p" children_fail = Fault NullDeref.
Proof. destruct UW; vm_compute; repeat split; reflexivity. Qed.

(** ** Locking around the working directory *)

(** C3 (as stated) fails in both configurations.  Without [UW] the
    spinlock of the current process is held while [VOP_INCREF] runs; with
    [UW] the spinlock is not taken at all, so it is not "taken to read the
    pointer and released before the increment" either. *)
Lemma cwd_lock_discipline_fails :
  ¬ cwd_lock_discipline false "p" demo_state ∧
  ¬ cwd_lock_discipline true "p" demo_state ∧
  (let s' := after (proc_create_runprogram false "p") demo_state in
   proc_create_runprogram false "p" demo_state = Ok (Some 7%positive) s' ∧
   new_events demo_state s' =
     [EvGenPid 2; EvAcquire 2%positive; EvIncref 3%positive;
      EvRelease 2%positive] ∧
   incref_under_lock [] (new_events demo_state s') = true).
Proof.
  split; [|split].
  - intros H.
    destruct (H 2%positive demo_proc 3%positive
                (returned (proc_create_runprogram false "p") demo_state None)
                (after (proc_create_runprogram false "p") demo_state))
      as [H1 H2]; try (vm_compute; reflexivity).
    vm_compute in H2. clear -H2. discriminate H2.
  - intros H.
    destruct (H 2%positive demo_proc 3%positive
                (returned (proc_create_runprogram true "p") demo_state None)
                (after (proc_create_runprogram true "p") demo_state))
      as [H1 H2]; try (vm_compute; reflexivity).
    vm_compute in H1. clear -H1. discriminate H1.
  - vm_compute. repeat split; reflexivity.
Qed.

(** C3 (as amended): built with [UW], [proc_create_runprogram] never
    takes a spinlock: no acquire or release is among its events, so
    [VOP_INCREF] never runs with a spinlock taken by this function. *)
Theorem proc_create_runprogram_UW_takes_no_spinlock name s r s' :
  proc_create_runprogram true name s = Ok r s' →
  trace s' = trace s ++ new_events s s' ∧
  Forall (λ e, is_lock_event e = false) (new_events s s') ∧
  incref_under_lock [] (new_events s s') = false.
Proof.
  intros H. apply proc_create_runprogram_UW_emits in H.
  apply emits_new_events in H as [Ht HF].
  split; [done|]. split; [done|]. by apply no_lock_no_incref_under_lock.
Qed.

Lemma proc_create_runprogram_UW_takes_no_spinlock_witness :
  new_events demo_state (after (proc_create_runprogram true "p") demo_state)
    = [EvGenPid 2; EvIncref 3%positive] ∧
  incref_under_lock []
    (new_events demo_state (after (proc_create_runprogram true "p") demo_state))
    = false.
Proof.
  split; [vm_compute; reflexivity|].
  apply (proc_create_runprogram_UW_takes_no_spinlock "p" demo_state
           (returned (proc_create_runprogram true "p") demo_state None)
           (after (proc_create_runprogram true "p") demo_state)).
  vm_compute. reflexivity.
Defined.
